(** * The dependency-tracking engine of src/core/observer/dep.js

    A shallow embedding of the [Dep] class and of the evaluation context
    stack ([Dep.target], [targetStack], [pushTarget], [popTarget]), and the
    properties of the engine that the specification states.

    JavaScript objects live in a store and are named by references; the
    methods of [Dep] are store transformers.  The [Watcher] class is not
    part of the engine: its three members used by dep.js ([id], [addDep],
    [update]) are an interface, and every theorem about [depend] and
    [notify] holds for all implementations of it.  A call of [addDep] or
    [update] is a store transformer that returns or throws; it is assumed
    to do one of the two.

    Numbers that the code only counts with ([uid], the ids) are integers;
    a JavaScript number holds them exactly up to 2^53. *)

From Stdlib Require Import ZArith List Sorted Permutation Lia.
From stdpp Require Import base list sorting relations strings.

Local Open Scope Z_scope.

(** ** Data *)

(** References to [Watcher] objects and to [Dep] objects.  Two references
    are the same object exactly when they are equal ([indexOf] compares
    with [===]). *)
Abbreviation wref := nat (only parsing).
Abbreviation dref := nat (only parsing).

(** The values of the Flow type [?Watcher]: [null], [undefined] or a
    watcher. *)
Inductive Target : Type :=
| TNull
| TUndefined
| TWatcher (w : wref).

(** An instance of [class Dep]: the fields [id] and [subs]. *)
Record Dep : Type := mkDep { id : Z; subs : list wref }.

(** The store: the module variable [uid], the [Dep] objects allocated so
    far (a reference is the position in allocation order), the static
    property [Dep.target], the module constant [targetStack] (an array:
    the top of the stack is its last element), and the state [collab] that
    belongs to the watchers. *)
Record Store (C : Type) : Type := mkStore {
  uid : Z;
  heap : list Dep;
  Dep_target : Target;
  targetStack : list Target;
  collab : C
}.
Arguments mkStore {C} _ _ _ _ _.
Arguments uid {C} _.
Arguments heap {C} _.
Arguments Dep_target {C} _.
Arguments targetStack {C} _.
Arguments collab {C} _.

(** How a call ends: it returns, or it throws the value [e]; either way
    the store is the one the call left behind. *)
Inductive Completion (E S : Type) : Type :=
| Returns (s : S)
| Throws (e : E) (s : S).
Arguments Returns {E S} _.
Arguments Throws {E S} _ _.

(** The members of [Watcher] that dep.js uses. *)
Class Watcher (C E : Type) : Type := {
  watcher_id : C -> wref -> Z;
  addDep : wref -> dref -> Store C -> Completion E (Store C);
  update : wref -> Store C -> Completion E (Store C)
}.

(** The method calls that [depend] and [notify] make on watchers
    themselves; what a called method calls in turn is part of its effect on
    the store. *)
Inductive Call : Type :=
| CallAddDep (w : wref) (d : dref)
| CallUpdate (w : wref).

(** [process.env.NODE_ENV === 'production'] and [config.async]: both come
    from outside dep.js. *)
Record Config : Type := mkConfig { production : bool; async : bool }.

(** ** Built-ins and helpers *)

(** The test of [if (Dep.target)]: a watcher is truthy, [null] and
    [undefined] are not. *)
Definition truthy (t : Target) : option wref :=
  match t with
  | TWatcher w => Some w
  | TNull | TUndefined => None
  end.

(** [arr[i]] on an array of [?Watcher]: [undefined] out of range. *)
Definition js_get (arr : list Target) (i : Z) : Target :=
  if i <? 0 then TUndefined
  else match arr !! Z.to_nat i with
       | Some t => t
       | None => TUndefined
       end.

(** [Array.prototype.sort(comparefn)]: for a consistent comparator the
    result is the stable sorted arrangement; here by insertion. *)
Fixpoint sort_insert {A : Type} (cmp : A -> A -> Z) (x : A) (l : list A) : list A :=
  match l with
  | [] => [x]
  | y :: ys => if cmp x y <=? 0 then x :: y :: ys else y :: sort_insert cmp x ys
  end.

Definition sort {A : Type} (cmp : A -> A -> Z) (l : list A) : list A :=
  foldr (sort_insert cmp) [] l.

(** Modelled from the spec: [remove] of '../util/index' is not among the
    sources.  [removeSub], which only calls it, "removes the first (and
    expected only) occurrence of consumer from the subscriber sequence.
    No-op if absent." *)
Fixpoint remove (arr : list wref) (item : wref) : list wref :=
  match arr with
  | [] => []
  | x :: rest => if decide (x = item) then rest else x :: remove rest item
  end.

(** A sequence of watchers in which those of smaller key come first. *)
Definition ascending (key : wref -> Z) (l : list wref) : Prop :=
  forall (i j : nat) (a b : wref),
    l !! i = Some a -> l !! j = Some b -> key a < key b -> (i < j)%nat.

(** ** The engine *)

Section Engine.
Context {C : Type}.

Definition set_heap (h : list Dep) (s : Store C) : Store C :=
  mkStore (uid s) h (Dep_target s) (targetStack s) (collab s).

Definition set_collab (c : C) (s : Store C) : Store C :=
  mkStore (uid s) (heap s) (Dep_target s) (targetStack s) c.

(** The module at load time: [let uid = 0], [Dep.target = null],
    [const targetStack = []], no [Dep] allocated. *)
Definition init (c : C) : Store C := mkStore 0 [] TNull [] c.

(** [this.subs] *)
Definition subs_of (s : Store C) (this : dref) : list wref :=
  match heap s !! this with
  | Some d => subs d
  | None => []
  end.

(** [new Dep()]: [this.id = uid++; this.subs = []]. *)
Definition new_Dep (s : Store C) : dref * Store C :=
  (length (heap s),
   mkStore (uid s + 1) (heap s ++ [mkDep (uid s) []])
           (Dep_target s) (targetStack s) (collab s)).

(** [this.subs.push(sub)] *)
Definition addSub (this : dref) (sub : wref) (s : Store C) : Store C :=
  set_heap (alter (fun d => mkDep (id d) (subs d ++ [sub])) this (heap s)) s.

(** [remove(this.subs, sub)] *)
Definition removeSub (this : dref) (sub : wref) (s : Store C) : Store C :=
  set_heap (alter (fun d => mkDep (id d) (remove (subs d) sub)) this (heap s)) s.

(** [targetStack.push(target); Dep.target = target] *)
Definition pushTarget (target : Target) (s : Store C) : Store C :=
  mkStore (uid s) (heap s) target (targetStack s ++ [target]) (collab s).

(** [targetStack.pop(); Dep.target = targetStack[targetStack.length - 1]] *)
Definition popTarget (s : Store C) : Store C :=
  let stack := removelast (targetStack s) in
  mkStore (uid s) (heap s)
          (js_get stack (Z.of_nat (length stack) - 1))
          stack (collab s).

(** One operation of the engine that writes the store, or a change of
    the watchers' own state. *)
Inductive step : Store C -> Store C -> Prop :=
| step_new s : step s (snd (new_Dep s))
| step_addSub d w s : step s (addSub d w s)
| step_removeSub d w s : step s (removeSub d w s)
| step_pushTarget t s : step s (pushTarget t s)
| step_popTarget s : step s (popTarget s)
| step_collab c s : step s (set_collab c s).

Definition reach : Store C -> Store C -> Prop := rtc step.

(** [Dep.target] is the top of [targetStack]; with an empty stack it is
    [null] (at load time) or [undefined] (after the last pop). *)
Definition stack_inv (s : Store C) : Prop :=
  match targetStack s with
  | [] => truthy (Dep_target s) = None
  | _ :: _ => last (targetStack s) = Some (Dep_target s)
  end.

(** The [n]-th [Dep] created has the id [n], counting from 0, and [uid]
    is the number of [Dep]s created. *)
Definition id_inv (s : Store C) : Prop :=
  uid s = Z.of_nat (length (heap s))
  /\ forall (d : dref) (D : Dep), heap s !! d = Some D -> id D = Z.of_nat d.

Context {E : Type} {W : Watcher C E}.

(** The store that a call leaves. *)
Definition final (r : Completion E (Store C)) : Store C :=
  match r with
  | Returns s => s
  | Throws _ s => s
  end.

(** Watchers that write the engine's part of the store through the
    engine's operations only. *)
Definition respects : Prop :=
  (forall (w : wref) (d : dref) (s : Store C), reach s (final (addDep w d s)))
  /\ (forall (w : wref) (s : Store C), reach s (final (update w s))).

(** [if (Dep.target) { Dep.target.addDep(this) }] *)
Definition depend (this : dref) (s : Store C) : list Call * Completion E (Store C) :=
  match Dep_target s with
  | TWatcher w => ([CallAddDep w this], addDep w this s)
  | TNull | TUndefined => ([], Returns s)
  end.

(** [for (let i = 0, l = subs.length; i < l; i++) { subs[i].update() }]
    over the local array [subs]; a throw leaves the loop and [notify]. *)
Fixpoint notify_loop (subs : list wref) (s : Store C) : list Call * Completion E (Store C) :=
  match subs with
  | [] => ([], Returns s)
  | w :: rest =>
      match update w s with
      | Returns s' =>
          let r := notify_loop rest s' in (CallUpdate w :: fst r, snd r)
      | Throws e s' => ([CallUpdate w], Throws e s')
      end
  end.

(** The array that [notify] iterates: [this.subs.slice()], sorted with
    [(a, b) => a.id - b.id] when
    [process.env.NODE_ENV !== 'production' && !config.async]. *)
Definition snapshot (cfg : Config) (this : dref) (s : Store C) : list wref :=
  let subs := subs_of s this in
  if negb (production cfg) && negb (async cfg)
  then sort (fun a b => watcher_id (collab s) a - watcher_id (collab s) b) subs
  else subs.

Definition notify (cfg : Config) (this : dref) (s : Store C) : list Call * Completion E (Store C) :=
  notify_loop (snapshot cfg this s) s.

(** The watchers in a list of calls of [update]. *)
Definition updated (calls : list Call) : list wref :=
  omap (fun c => match c with CallUpdate w => Some w | CallAddDep _ _ => None end) calls.

(** The store after the calls of [update] on the watchers of [l], when
    all of them return. *)
Fixpoint run_updates (l : list wref) (s : Store C) : option (Store C) :=
  match l with
  | [] => Some s
  | w :: rest =>
      match update w s with
      | Returns s' => run_updates rest s'
      | Throws _ _ => None
      end
  end.

End Engine.

(** ** Watchers and stores of the examples *)

(** The state of the example watchers: the id of each watcher, by
    reference, and the pairs (watcher, dep) that are subscribed. *)
Record Book : Type := mkBook { ids : list Z; depIds : list (wref * dref) }.

Definition book_id (b : Book) (w : wref) : Z :=
  match ids b !! w with
  | Some n => n
  | None => 0
  end.

Definition subscribed (b : Book) (w : wref) (d : dref) : bool :=
  existsb (fun p => Nat.eqb (fst p) w && Nat.eqb (snd p) d) (depIds b).

(** Watchers in the manner of the spec's scenarios.  [addDep] subscribes
    the watcher unless its book says it is subscribed; [update] throws for
    the watchers of [failing]; for any other it unsubscribes the watcher
    from the dep 0 and subscribes it again. *)
Definition scenario (failing : list wref) : Watcher Book string :=
  {| watcher_id := book_id;
     addDep := fun w d s =>
       if subscribed (collab s) w d then Returns s
       else Returns (addSub d w
              (set_collab (mkBook (ids (collab s)) ((w, d) :: depIds (collab s))) s));
     update := fun w s =>
       if existsb (Nat.eqb w) failing then Throws "update failed"%string s
       else Returns (addSub 0%nat w (removeSub 0%nat w s)) |}.

(** Watchers whose [update] throws in a store where the dep 0 has no
    subscriber, and returns without a change in any other. *)
Definition picky : Watcher Book string :=
  {| watcher_id := book_id;
     addDep := fun w d s => Returns s;
     update := fun w s =>
       match subs_of s 0%nat with
       | [] => Throws "no subscriber"%string s
       | _ :: _ => Returns s
       end |}.

(** Two watchers: [wA] with id 2 and [wB] with id 1. *)
Definition wA : wref := 0%nat.
Definition wB : wref := 1%nat.
Definition book0 : Book := mkBook [2; 1] [].

(** One dep, no subscriber, nothing under evaluation. *)
Definition store_D : Store Book := snd (new_Dep (init book0)).

(** The dep 0 with the subscribers [wA; wB], in this order. *)
Definition store_AB : Store Book :=
  mkStore 1 [mkDep 0 [wA; wB]] TUndefined [] (mkBook [2; 1] [(wB, 0%nat); (wA, 0%nat)]).

Definition cfg_sync : Config := mkConfig false false.
Definition cfg_production_sync : Config := mkConfig true false.
Definition cfg_async : Config := mkConfig false true.

(** ** Sequences of calls of [pushTarget] and [popTarget] *)

(** A call of [pushTarget(t)] or of [popTarget()]. *)
Inductive StackOp : Type :=
| OpPush (t : Target)
| OpPop.

Definition run_op {C : Type} (op : StackOp) (s : Store C) : Store C :=
  match op with
  | OpPush t => pushTarget t s
  | OpPop => popTarget s
  end.

(** The calls of [ops] one after the other, the first of the list first. *)
Definition run_ops {C : Type} (ops : list StackOp) (s : Store C) : Store C :=
  foldl (fun s0 op => run_op op s0) s ops.

(** [nested depth ops]: with [depth] pushes open, every [popTarget] of
    [ops] answers an open [pushTarget], and none is left open at the end:
    the calls are bracketed, as [Watcher.get] brackets an evaluation. *)
Fixpoint nested (depth : nat) (ops : list StackOp) : bool :=
  match ops with
  | [] => Nat.eqb depth 0
  | OpPush _ :: rest => nested (S depth) rest
  | OpPop :: rest =>
      match depth with
      | O => false
      | S depth' => nested depth' rest
      end
  end.

(** ** src/core/util/props.js: the name of a type *)

(** The UTF-16 code units of a string of one-byte characters; a
    JavaScript string is the list of its code units. *)
Definition codes (s : string) : list N :=
  Ascii.N_of_ascii <$> String.list_ascii_of_string s.

(** [\s] in a regular expression: white space and line terminators. *)
Definition is_space (c : N) : bool :=
  ((9 <=? c) && (c <=? 13) || (c =? 32) || (c =? 160) || (c =? 5760)
   || (8192 <=? c) && (c <=? 8202) || (c =? 8232) || (c =? 8233)
   || (c =? 8239) || (c =? 8287) || (c =? 12288) || (c =? 65279))%N.

(** [\w] in a regular expression without the flags [i] and [u]:
    [A-Za-z0-9_]. *)
Definition is_word (c : N) : bool :=
  ((48 <=? c) && (c <=? 57) || (65 <=? c) && (c <=? 90) || (c =? 95)
   || (97 <=? c) && (c <=? 122))%N.

(** [\s*] at the start of [str]: what is left after it. *)
Fixpoint skip_spaces (str : list N) : list N :=
  match str with
  | [] => []
  | c :: rest => if is_space c then skip_spaces rest else str
  end.

(** A literal at the start of [str]: what is left after it. *)
Fixpoint strip_prefix (literal str : list N) : option (list N) :=
  match literal, str with
  | [], _ => Some str
  | _ :: _, [] => None
  | a :: literal', c :: rest => if (a =? c)%N then strip_prefix literal' rest else None
  end.

(** [\w*] at the start of [str]: what it matches. *)
Fixpoint take_word (str : list N) : list N :=
  match str with
  | [] => []
  | c :: rest => if is_word c then c :: take_word rest else []
  end.

(** [str.match(/^\s*function (\w+)/)]: [None] for [null], else the group 1
    of the match.  No white space is an [f], so [\s*] takes all the white
    space at the start; [\w+] takes all the word characters that follow
    [function ] and needs one. *)
Definition match_function_name (str : list N) : option (list N) :=
  match strip_prefix (codes "function ") (skip_spaces str) with
  | Some rest =>
      match take_word rest with
      | [] => None
      | c :: name => Some (c :: name)
      end
  | None => None
  end.

(** A value given as a type, as far as [getType] looks at it: falsy, or
    truthy with the string that its [toString()] returns. *)
Inductive TypeValue : Type :=
| Falsy
| Truthy (toString : list N).

(** [const match = fn && fn.toString().match(/^\s*function (\w+)/);
     return match ? match[1] : ''] *)
Definition getType (fn : TypeValue) : list N :=
  match fn with
  | Falsy => []
  | Truthy str =>
      match match_function_name str with
      | Some name => name
      | None => []
      end
  end.

(** [getType(a) === getType(b)] *)
Definition isSameType (a b : TypeValue) : bool :=
  bool_decide (getType a = getType b).

(** The second argument of [getTypeIndex]: an array of types or one
    value. *)
Inductive ExpectedTypes : Type :=
| NotArray (t : TypeValue)
| IsArray (ts : list TypeValue).

(** [for (let i = 0, len = expectedTypes.length; i < len; i++)
      { if (isSameType(expectedTypes[i], type)) { return i } }
     return -1], from the index [i] on. *)
Fixpoint getTypeIndex_from (type : TypeValue) (ts : list TypeValue) (i : Z) : Z :=
  match ts with
  | [] => -1
  | t :: rest => if isSameType t type then i else getTypeIndex_from type rest (i + 1)
  end.

Definition getTypeIndex (type : TypeValue) (expectedTypes : ExpectedTypes) : Z :=
  match expectedTypes with
  | NotArray t => if isSameType t type then 0 else -1
  | IsArray ts => getTypeIndex_from type ts 0
  end.

(** A string that does not go on with a word character. *)
Definition word_ends (rest : list N) : Prop :=
  match rest with
  | [] => True
  | c :: _ => is_word c = false
  end.

(** The constructors [Boolean] and [String], and a function without a
    name. *)
Definition Boolean_type : TypeValue := Truthy (codes "function Boolean() { [native code] }").
Definition String_type : TypeValue := Truthy (codes "function String() { [native code] }").
Definition anonymous_type : TypeValue := Truthy (codes "function (a) { return a }").

(** ** Reading and writing the store *)

Section StoreFacts.
Context {C : Type}.
Implicit Types (s : Store C) (d : Dep) (this : dref) (sub : wref).

Lemma store_eq s1 s2 :
  uid s1 = uid s2 -> heap s1 = heap s2 -> Dep_target s1 = Dep_target s2 ->
  targetStack s1 = targetStack s2 -> collab s1 = collab s2 -> s1 = s2.
Proof. destruct s1, s2; simpl; intros; subst; reflexivity. Qed.

Lemma subs_of_lookup s this d : heap s !! this = Some d -> subs_of s this = subs d.
Proof. unfold subs_of. intros ->. reflexivity. Qed.

Lemma alter_same (f : Dep -> Dep) (h : list Dep) this d :
  h !! this = Some d -> f d = d -> alter f this h = h.
Proof.
  intros Hd Hf. apply list_eq. intros i.
  destruct (decide (this = i)) as [Heq | Hne].
  - subst i. rewrite list_lookup_alter_eq. rewrite Hd. simpl. congruence.
  - apply list_lookup_alter_ne. exact Hne.
Qed.

(** *** [remove] *)

Lemma remove_absent (l : list wref) sub : sub ∉ l -> remove l sub = l.
Proof.
  induction l as [| x l IH]; simpl; [reflexivity |].
  rewrite not_elem_of_cons. intros [Hne Hl].
  destruct (decide (x = sub)); [congruence |]. rewrite IH; auto.
Qed.

Lemma remove_first (l1 l2 : list wref) sub :
  sub ∉ l1 -> remove (l1 ++ sub :: l2) sub = l1 ++ l2.
Proof.
  induction l1 as [| x l1 IH]; simpl.
  - intros _. destruct (decide (sub = sub)); congruence.
  - rewrite not_elem_of_cons. intros [Hne Hl].
    destruct (decide (x = sub)); [congruence |]. rewrite IH; auto.
Qed.

End StoreFacts.

(** ** [addSub] and [removeSub] *)

Section Subscribers.
Context {C : Type}.
Implicit Types (s : Store C) (d : Dep) (this : dref) (sub : wref).

Lemma addSub_lookup s this d sub :
  heap s !! this = Some d ->
  heap (addSub this sub s) !! this = Some (mkDep (id d) (subs d ++ [sub])).
Proof.
  intros Hd. unfold addSub, set_heap. simpl.
  rewrite list_lookup_alter_eq, Hd. reflexivity.
Qed.

Lemma addSub_other s this sub (other : dref) :
  other <> this -> heap (addSub this sub s) !! other = heap s !! other.
Proof.
  intros Hne. unfold addSub, set_heap. simpl.
  apply list_lookup_alter_ne. congruence.
Qed.

Lemma removeSub_lookup s this d sub :
  heap s !! this = Some d ->
  heap (removeSub this sub s) !! this = Some (mkDep (id d) (remove (subs d) sub)).
Proof.
  intros Hd. unfold removeSub, set_heap. simpl.
  rewrite list_lookup_alter_eq, Hd. reflexivity.
Qed.

Lemma removeSub_other s this sub (other : dref) :
  other <> this -> heap (removeSub this sub s) !! other = heap s !! other.
Proof.
  intros Hne. unfold removeSub, set_heap. simpl.
  apply list_lookup_alter_ne. congruence.
Qed.

(** C7.  [D.addSub(c)] appends [c] to the end of the subscriber sequence
    of [D], whether or not [c] is in it already (a second call gives a
    second occurrence), and writes nothing else: the id of [D], every
    other dep, [uid], [Dep.target], [targetStack] and the watchers' state
    stay as they are. *)
Theorem addSub_appends_only s this d sub :
  heap s !! this = Some d ->
  heap (addSub this sub s) !! this = Some (mkDep (id d) (subs d ++ [sub]))
  /\ subs_of (addSub this sub (addSub this sub s)) this = subs d ++ [sub; sub]
  /\ (forall other : dref, other <> this ->
        heap (addSub this sub s) !! other = heap s !! other)
  /\ length (heap (addSub this sub s)) = length (heap s)
  /\ uid (addSub this sub s) = uid s
  /\ Dep_target (addSub this sub s) = Dep_target s
  /\ targetStack (addSub this sub s) = targetStack s
  /\ collab (addSub this sub s) = collab s.
Proof.
  intros Hd. split; [apply addSub_lookup; exact Hd |].
  split.
  { erewrite subs_of_lookup.
    2: { apply addSub_lookup. apply addSub_lookup. exact Hd. }
    simpl. rewrite <- app_assoc. reflexivity. }
  split; [intros other Hne; apply addSub_other; exact Hne |].
  split; [unfold addSub, set_heap; simpl; apply length_alter |].
  repeat split.
Qed.

(** C8.  [D.removeSub(c)] takes the first occurrence of [c] out of the
    subscriber sequence of [D] and keeps the other elements in their
    order; when [c] is not in the sequence the store is unchanged.  It is
    a total function: it has no failing case.  Nothing but the sequence
    of [D] is written. *)
Theorem removeSub_first_occurrence s this d sub :
  heap s !! this = Some d ->
  (sub ∉ subs d -> removeSub this sub s = s)
  /\ (sub ∈ subs d ->
        exists l1 l2, subs d = l1 ++ sub :: l2 /\ (sub ∉ l1)
          /\ heap (removeSub this sub s) !! this = Some (mkDep (id d) (l1 ++ l2)))
  /\ (forall other : dref, other <> this ->
        heap (removeSub this sub s) !! other = heap s !! other)
  /\ length (heap (removeSub this sub s)) = length (heap s)
  /\ uid (removeSub this sub s) = uid s
  /\ Dep_target (removeSub this sub s) = Dep_target s
  /\ targetStack (removeSub this sub s) = targetStack s
  /\ collab (removeSub this sub s) = collab s.
Proof.
  intros Hd. split.
  { intros Hnotin. apply store_eq; try reflexivity.
    unfold removeSub, set_heap. simpl.
    apply alter_same with (d := d); [exact Hd |].
    rewrite remove_absent by exact Hnotin. destruct d; reflexivity. }
  split.
  { intros Hin. apply list_elem_of_split_l in Hin.
    destruct Hin as (l1 & l2 & Heq & Hl1).
    exists l1, l2. split; [exact Heq |]. split; [exact Hl1 |].
    rewrite (removeSub_lookup _ _ _ _ Hd), Heq, remove_first by exact Hl1.
    reflexivity. }
  split; [intros other Hne; apply removeSub_other; exact Hne |].
  split; [unfold removeSub, set_heap; simpl; apply length_alter |].
  repeat split.
Qed.

End Subscribers.

(** ** The evaluation context stack *)

Section ContextStack.
Context {C : Type}.
Implicit Types (s : Store C) (t : Target).

Lemma js_get_top (stack : list Target) :
  js_get stack (Z.of_nat (length stack) - 1) =
  match last stack with
  | Some t => t
  | None => TUndefined
  end.
Proof.
  unfold js_get. rewrite last_lookup. destruct stack as [| t0 stack].
  - reflexivity.
  - replace (Z.of_nat (length (t0 :: stack)) - 1) with (Z.of_nat (length stack))
      by (simpl length; lia).
    destruct (Z.ltb_spec (Z.of_nat (length stack)) 0) as [Hneg | _]; [lia |].
    rewrite Nat2Z.id. reflexivity.
Qed.

Lemma popTarget_pushTarget s t :
  popTarget (pushTarget t s) =
  mkStore (uid s) (heap s)
          (match last (targetStack s) with Some t' => t' | None => TUndefined end)
          (targetStack s) (collab s).
Proof.
  unfold popTarget, pushTarget. simpl.
  rewrite removelast_last, js_get_top. reflexivity.
Qed.

Lemma pushTarget_top s t : last (targetStack (pushTarget t s)) = Some (Dep_target (pushTarget t s)).
Proof. unfold pushTarget. simpl. apply last_snoc. Qed.

Lemma popTarget_pushTarget_pushTarget s t1 t2 :
  popTarget (pushTarget t2 (pushTarget t1 s)) = pushTarget t1 s.
Proof.
  rewrite popTarget_pushTarget, pushTarget_top. reflexivity.
Qed.

Lemma stack_inv_init (c : C) : stack_inv (init c).
Proof. reflexivity. Qed.

Lemma stack_inv_pushTarget s t : stack_inv (pushTarget t s).
Proof.
  unfold stack_inv. pose proof (pushTarget_top s t) as Htop.
  destruct (targetStack (pushTarget t s)); [discriminate | exact Htop].
Qed.

Lemma stack_inv_popTarget s : stack_inv (popTarget s).
Proof.
  unfold stack_inv, popTarget. simpl. rewrite js_get_top.
  destruct (removelast (targetStack s)) as [| t0 l] eqn:Hl; [reflexivity |].
  destruct (last (t0 :: l)) as [t' |] eqn:Hlast; [reflexivity |].
  apply last_None in Hlast. discriminate.
Qed.

Lemma stack_inv_step s s' : step s s' -> stack_inv s -> stack_inv s'.
Proof.
  intros Hstep Hinv. destruct Hstep; try exact Hinv.
  - apply stack_inv_pushTarget.
  - apply stack_inv_popTarget.
Qed.

Lemma stack_inv_reach s s' : reach s s' -> stack_inv s -> stack_inv s'.
Proof.
  intros Hreach. induction Hreach as [| s1 s2 s3 Hstep _ IH]; [tauto |].
  intros Hinv. apply IH. eapply stack_inv_step; eassumption.
Qed.

(** With the invariant, the value on top of a stack that is not empty is
    [Dep.target], and an empty stack has no truthy [Dep.target]. *)
Lemma stack_inv_top s :
  stack_inv s ->
  truthy (match last (targetStack s) with Some t => t | None => TUndefined end)
  = truthy (Dep_target s)
  /\ (targetStack s <> [] ->
      match last (targetStack s) with Some t => t | None => TUndefined end = Dep_target s).
Proof.
  unfold stack_inv. destruct (targetStack s) as [| t0 l].
  - intros ->. simpl. split; [reflexivity | congruence].
  - intros ->. split; reflexivity.
Qed.

(** C6.  In every store that the engine reaches from the one at load
    time, [Dep.target] is the top of [targetStack]; and after
    [pushTarget(X); pushTarget(Y); popTarget()] the active watcher is [X];
    one more [popTarget()] gives back the stack and the active watcher of
    before the first push: the same value of [Dep.target] when the stack
    was not empty, and no active watcher when it was. *)
Theorem push_push_pop_pop (c0 : C) s (X Y : wref) :
  reach (init c0) s ->
  (forall s', reach s s' -> stack_inv s')
  /\ Dep_target (popTarget (pushTarget (TWatcher Y) (pushTarget (TWatcher X) s)))
     = TWatcher X
  /\ targetStack (popTarget (pushTarget (TWatcher Y) (pushTarget (TWatcher X) s)))
     = targetStack s ++ [TWatcher X]
  /\ targetStack (popTarget (popTarget (pushTarget (TWatcher Y) (pushTarget (TWatcher X) s))))
     = targetStack s
  /\ truthy (Dep_target (popTarget (popTarget (pushTarget (TWatcher Y) (pushTarget (TWatcher X) s)))))
     = truthy (Dep_target s)
  /\ (targetStack s <> [] ->
      popTarget (popTarget (pushTarget (TWatcher Y) (pushTarget (TWatcher X) s))) = s)
  /\ (targetStack s = [] ->
      truthy (Dep_target (popTarget (popTarget (pushTarget (TWatcher Y) (pushTarget (TWatcher X) s)))))
      = None).
Proof.
  intros Hreach.
  assert (Hinv : stack_inv s)
    by (eapply stack_inv_reach; [exact Hreach | apply stack_inv_init]).
  destruct (stack_inv_top s Hinv) as [Htruthy Hsame].
  rewrite popTarget_pushTarget_pushTarget, popTarget_pushTarget. simpl.
  split; [intros s' Hs'; eapply stack_inv_reach; eassumption |].
  split; [reflexivity |]. split; [reflexivity |]. split; [reflexivity |].
  split; [exact Htruthy |]. split.
  - intros Hne. destruct s; simpl in *. rewrite (Hsame Hne). reflexivity.
  - intros Hnil. rewrite Hnil. reflexivity.
Qed.

End ContextStack.

(** ** [depend] *)

Section Depend.
Context {C E : Type} {W : Watcher C E}.
Implicit Types (s : Store C) (this : dref).

(** C4.  With no active watcher ([Dep.target] is [null] or [undefined]),
    [D.depend()] calls no method of any watcher and returns with the
    store it was given: subscriber sequences, context stack and the
    watchers' own state are the same. *)
Theorem depend_inactive_noop s this :
  truthy (Dep_target s) = None -> depend this s = ([], Returns s).
Proof.
  unfold depend. destruct (Dep_target s); simpl; [reflexivity .. | discriminate].
Qed.

(** C5.  With the active watcher [w], [D.depend()] makes one call,
    [w.addDep(D)], and ends as that call ends, with the store that the
    call leaves: [depend] writes nothing itself, so the subscriber
    sequence of [D] changes only if [addDep] changes it. *)
Theorem depend_active_addDep s this (w : wref) :
  Dep_target s = TWatcher w ->
  depend this s = ([CallAddDep w this], addDep w this s)
  /\ (forall s', addDep w this s = Returns s' -> heap s' = heap s ->
        exists s'', snd (depend this s) = Returns s''
                    /\ subs_of s'' this = subs_of s this).
Proof.
  intros Ht. unfold depend. rewrite Ht. split; [reflexivity |].
  intros s' Hs' Hheap. exists s'. split; [exact Hs' |].
  unfold subs_of. rewrite Hheap. reflexivity.
Qed.

(** C10.  [popTarget()] on an empty stack returns; the stack stays empty
    and [Dep.target] becomes [undefined], which is not the [null] of load
    time; a [depend()] after it finds no active watcher. *)
Theorem popTarget_empty_stack s this (c0 : C) :
  targetStack s = [] ->
  popTarget s = mkStore (uid s) (heap s) TUndefined [] (collab s)
  /\ depend this (popTarget s) = ([], Returns (popTarget s))
  /\ Dep_target (init c0) = TNull
  /\ Dep_target (popTarget s) <> Dep_target (init c0).
Proof.
  intros Hnil.
  assert (Hpop : popTarget s = mkStore (uid s) (heap s) TUndefined [] (collab s))
    by (unfold popTarget; rewrite Hnil; reflexivity).
  rewrite Hpop. repeat split. simpl. discriminate.
Qed.

End Depend.

(** ** [sort] with the comparator [(a, b) => a.id - b.id] *)

Section Sort.
Context {A : Type} (key : A -> Z).

Local Abbreviation by_key := (fun a b : A => key a - key b).
Local Abbreviation le_key := (fun a b : A => key a <= key b).

Lemma sort_insert_perm (x : A) (l : list A) : sort_insert by_key x l ≡ₚ x :: l.
Proof.
  induction l as [| y l IH]; simpl; [reflexivity |].
  destruct (key x - key y <=? 0); [reflexivity |].
  rewrite IH. apply perm_swap.
Qed.

Lemma sort_perm (l : list A) : sort by_key l ≡ₚ l.
Proof.
  induction l as [| x l IH]; simpl; [reflexivity |].
  rewrite sort_insert_perm, IH. reflexivity.
Qed.

Lemma sort_insert_sorted (x : A) (l : list A) :
  StronglySorted le_key l -> StronglySorted le_key (sort_insert by_key x l).
Proof.
  induction l as [| y l IH]; simpl; intros Hsorted.
  - repeat constructor.
  - apply StronglySorted_inv in Hsorted. destruct Hsorted as [Hl Hy].
    destruct (Z.leb_spec (key x - key y) 0) as [Hle | Hgt].
    + constructor; [constructor; assumption |].
      constructor; [lia |].
      eapply Forall_impl; [exact Hy |]. simpl. intros z Hz. lia.
    + constructor; [apply IH; exact Hl |].
      rewrite sort_insert_perm. constructor; [lia | exact Hy].
Qed.

Lemma sort_sorted (l : list A) : StronglySorted le_key (sort by_key l).
Proof.
  induction l as [| x l IH]; simpl; [constructor |].
  apply sort_insert_sorted. exact IH.
Qed.

(** A list in order is left as it is: equal keys keep their places. *)
Lemma sort_sorted_id (l : list A) : StronglySorted le_key l -> sort by_key l = l.
Proof.
  induction 1 as [| x l Hl IH Hx]; simpl; [reflexivity |].
  rewrite IH. destruct l as [| y l]; simpl; [reflexivity |].
  apply Forall_cons in Hx. destruct Hx as [Hxy _].
  destruct (Z.leb_spec (key x - key y) 0); [reflexivity | lia].
Qed.

Lemma sorted_lookup_le (l : list A) (i j : nat) (a b : A) :
  StronglySorted le_key l -> (i < j)%nat ->
  l !! i = Some a -> l !! j = Some b -> key a <= key b.
Proof.
  intros Hsorted. revert i j.
  induction Hsorted as [| x l Hl IH Hx]; intros i j Hij Hi Hj; [discriminate |].
  destruct j as [| j]; [lia |]. simpl in Hj.
  destruct i as [| i]; simpl in Hi.
  - injection Hi as ->. rewrite Forall_forall in Hx.
    apply Hx. eapply list_elem_of_lookup_2. exact Hj.
  - apply (IH i j); [lia | assumption ..].
Qed.

End Sort.

Lemma sorted_ascending (key : wref -> Z) (l : list wref) :
  StronglySorted (fun a b => key a <= key b) l -> ascending key l.
Proof.
  intros Hsorted i j a b Hi Hj Hlt.
  destruct (decide (i < j)%nat) as [Hij | Hij]; [exact Hij | exfalso].
  destruct (decide (i = j)) as [-> | Hne].
  - rewrite Hi in Hj. injection Hj as ->. lia.
  - assert (key b <= key a); [| lia].
    apply (sorted_lookup_le key l j i b a Hsorted); [lia | assumption ..].
Qed.

Lemma ascending_prefix (key : wref -> Z) (l1 l2 : list wref) :
  l1 `prefix_of` l2 -> ascending key l2 -> ascending key l1.
Proof.
  intros [k ->] Hasc i j a b Hi Hj. apply Hasc; apply lookup_app_l_Some; assumption.
Qed.

(** ** [notify] *)

Section Notify.
Context {C E : Type} {W : Watcher C E}.
Implicit Types (s : Store C) (this : dref) (l : list wref).

Lemma updated_updates l : updated (CallUpdate <$> l) = l.
Proof.
  unfold updated. induction l as [| w l IH]; simpl; [reflexivity |].
  f_equal. exact IH.
Qed.

(** A loop in which every call returns. *)
Lemma notify_loop_returns l s s' :
  run_updates l s = Some s' -> notify_loop l s = (CallUpdate <$> l, Returns s').
Proof.
  revert s. induction l as [| w l IH]; intros s; simpl.
  - intros [= ->]. reflexivity.
  - destruct (update w s) as [s1 | e s1]; [| discriminate].
    intros Hrun. rewrite (IH _ Hrun). reflexivity.
Qed.

(** A loop in which the call on [w] throws. *)
Lemma notify_loop_throws l1 w l2 s s1 e s2 :
  run_updates l1 s = Some s1 -> update w s1 = Throws e s2 ->
  notify_loop (l1 ++ w :: l2) s = (CallUpdate <$> (l1 ++ [w]), Throws e s2).
Proof.
  revert s. induction l1 as [| w1 l1 IH]; intros s; simpl.
  - intros [= ->] ->. reflexivity.
  - destruct (update w1 s) as [s' | e' s']; [| discriminate].
    intros Hrun Hw. rewrite (IH _ Hrun Hw). reflexivity.
Qed.

(** The two lemmas above cover every loop. *)
Lemma notify_loop_cases l s :
  (exists s', run_updates l s = Some s')
  \/ (exists l1 w l2 s1 e s2,
        l = l1 ++ w :: l2 /\ run_updates l1 s = Some s1 /\ update w s1 = Throws e s2).
Proof.
  revert s. induction l as [| w l IH]; intros s; simpl.
  - left. eauto.
  - destruct (update w s) as [s1 | e s1] eqn:Hw.
    + destruct (IH s1) as [[s' Hs'] | (l1 & w' & l2 & s1' & e & s2 & -> & Hrun & Hthrow)].
      * left. eauto.
      * right. exists (w :: l1), w', l2, s1', e, s2. simpl. rewrite Hw. auto.
    + right. exists [], w, l, s, e, s1. auto.
Qed.

(** The calls that a loop makes are calls of [update] on a front part of
    the array, in the order of the array. *)
Lemma notify_loop_prefix l s : updated (fst (notify_loop l s)) `prefix_of` l.
Proof.
  destruct (notify_loop_cases l s)
    as [[s' Hs'] | (l1 & w & l2 & s1 & e & s2 & -> & Hrun & Hthrow)].
  - rewrite (notify_loop_returns _ _ _ Hs'). simpl. rewrite updated_updates. reflexivity.
  - rewrite (notify_loop_throws _ _ _ _ _ _ _ Hrun Hthrow). simpl.
    rewrite updated_updates. exists l2. rewrite <- app_assoc. reflexivity.
Qed.

(** When the calls of [update] on the watchers of [l] return in every
    store, the loop over [l] returns. *)
Lemma run_updates_total l s :
  (forall w, w ∈ l -> forall s0, exists s1, update w s0 = Returns s1) ->
  exists s', run_updates l s = Some s'.
Proof.
  revert s. induction l as [| w l IH]; intros s Hret; simpl; [eauto |].
  destruct (Hret w (list_elem_of_here _ _) s) as [s1 ->].
  apply IH. intros w' Hw'. apply Hret. apply list_elem_of_further. exact Hw'.
Qed.

Lemma snapshot_perm cfg this s : snapshot cfg this s ≡ₚ subs_of s this.
Proof.
  unfold snapshot. destruct (negb (production cfg) && negb (async cfg)); [| reflexivity].
  apply (sort_perm (watcher_id (collab s))).
Qed.

Lemma snapshot_sorted cfg this s :
  production cfg = false -> async cfg = false ->
  StronglySorted (fun a b => watcher_id (collab s) a <= watcher_id (collab s) b)
                 (snapshot cfg this s).
Proof.
  intros Hp Ha. unfold snapshot. rewrite Hp, Ha. simpl.
  apply (sort_sorted (watcher_id (collab s))).
Qed.

Lemma snapshot_unsorted cfg this s :
  production cfg = true \/ async cfg = true -> snapshot cfg this s = subs_of s this.
Proof.
  unfold snapshot. intros [-> | ->]; simpl; [reflexivity |].
  rewrite andb_false_r. reflexivity.
Qed.

End Notify.

Section NotifyClaims.
Context {C E : Type} {W : Watcher C E}.
Implicit Types (s : Store C) (this : dref) (d : Dep) (l : list wref).

(** The snapshot holds the subscribers of entry, each as often as the
    subscriber sequence does. *)
Lemma snapshot_perm_subs cfg s this d :
  heap s !! this = Some d -> snapshot cfg this s ≡ₚ subs d.
Proof.
  intros Hd. rewrite snapshot_perm. rewrite (subs_of_lookup _ _ _ Hd). reflexivity.
Qed.

(** [notify] returns exactly when each call of [update] of the run
    returns, with the store that these calls leave one after the other. *)
Lemma notify_Returns_iff cfg s this s' :
  snd (notify cfg this s) = Returns s' <-> run_updates (snapshot cfg this s) s = Some s'.
Proof.
  unfold notify. split.
  - intros Hret.
    destruct (notify_loop_cases (snapshot cfg this s) s)
      as [[s0 Hs0] | (l1 & w & l2 & s1 & e & s2 & Hsnap & Hrun & Hthrow)].
    + rewrite (notify_loop_returns _ _ _ Hs0) in Hret. simpl in Hret. congruence.
    + rewrite Hsnap, (notify_loop_throws _ _ _ _ _ _ _ Hrun Hthrow) in Hret.
      discriminate.
  - intros Hrun. rewrite (notify_loop_returns _ _ _ Hrun). reflexivity.
Qed.

(** C2, as the code has it.  When no call of [update] of the run throws
    (each returns in the store that the calls before it have left), one
    call of [D.notify()] returns with the store that these calls leave,
    after calling [update] on the snapshot taken at entry and on nothing
    else: as often on each watcher as it occurs in the subscriber sequence
    at entry, hence once on a watcher that occurs once and never on one
    that does not occur.  [update] is any store transformer: what it does
    to the subscriber sequence of [D] during the loop changes none of
    this. *)
Theorem notify_delivers_snapshot cfg s this d s' :
  heap s !! this = Some d ->
  run_updates (snapshot cfg this s) s = Some s' ->
  notify cfg this s = (CallUpdate <$> snapshot cfg this s, Returns s')
  /\ snapshot cfg this s ≡ₚ subs d
  /\ (forall w, count_occ Nat.eq_dec (updated (fst (notify cfg this s))) w
                = count_occ Nat.eq_dec (subs d) w)
  /\ (forall w, w ∈ updated (fst (notify cfg this s)) <-> w ∈ subs d)
  /\ (NoDup (subs d) -> forall w, w ∈ subs d ->
        count_occ Nat.eq_dec (updated (fst (notify cfg this s))) w = 1%nat).
Proof.
  intros Hd Hrun.
  pose proof (snapshot_perm_subs cfg s this d Hd) as Hperm.
  assert (Hnotify : notify cfg this s = (CallUpdate <$> snapshot cfg this s, Returns s'))
    by (apply notify_loop_returns; exact Hrun).
  rewrite Hnotify. simpl. rewrite updated_updates.
  split; [reflexivity |]. split; [exact Hperm |].
  assert (Hcount : forall w, count_occ Nat.eq_dec (snapshot cfg this s) w
                             = count_occ Nat.eq_dec (subs d) w).
  { apply (Permutation_count_occ Nat.eq_dec). exact Hperm. }
  split; [exact Hcount |].
  split; [intros w; rewrite Hperm; reflexivity |].
  intros Hnodup w Hw. rewrite Hcount.
  apply (NoDup_count_occ' Nat.eq_dec); [apply NoDup_ListNoDup; exact Hnodup |].
  apply list_elem_of_In. exact Hw.
Qed.

(** C1, as the code has it.  Outside a production build and with
    [config.async] false, the calls of [update] made by one [D.notify()]
    are in ascending order of the watchers' ids as they are at entry,
    whatever the order of subscription; when no call of the run throws,
    [notify] returns after calling every subscriber of entry, in this
    order.  In a production build, or with [config.async] true, the calls
    follow the order of the subscriber sequence. *)
Theorem notify_ascending_outside_production cfg s this d :
  heap s !! this = Some d ->
  (production cfg = false -> async cfg = false ->
     ascending (watcher_id (collab s)) (updated (fst (notify cfg this s)))
     /\ (forall s', run_updates (snapshot cfg this s) s = Some s' ->
           notify cfg this s = (CallUpdate <$> snapshot cfg this s, Returns s')
           /\ updated (fst (notify cfg this s)) ≡ₚ subs d
           /\ StronglySorted
                (fun a b => watcher_id (collab s) a <= watcher_id (collab s) b)
                (updated (fst (notify cfg this s)))))
  /\ (production cfg = true \/ async cfg = true ->
      updated (fst (notify cfg this s)) `prefix_of` subs d
      /\ (forall s', run_updates (snapshot cfg this s) s = Some s' ->
            notify cfg this s = (CallUpdate <$> subs d, Returns s'))).
Proof.
  intros Hd. split.
  - intros Hp Ha. pose proof (snapshot_sorted cfg this s Hp Ha) as Hsorted.
    split.
    + eapply ascending_prefix; [apply notify_loop_prefix |].
      apply sorted_ascending. exact Hsorted.
    + intros s' Hrun.
      assert (Hnotify : notify cfg this s = (CallUpdate <$> snapshot cfg this s, Returns s'))
        by (apply notify_loop_returns; exact Hrun).
      rewrite Hnotify. simpl. rewrite updated_updates.
      split; [reflexivity |].
      split; [apply snapshot_perm_subs; exact Hd | exact Hsorted].
  - intros Hcfg. rewrite <- (subs_of_lookup _ _ _ Hd).
    rewrite <- (snapshot_unsorted cfg this s Hcfg).
    split; [apply notify_loop_prefix |].
    intros s' Hrun. apply notify_loop_returns. exact Hrun.
Qed.

(** C3, as the code has it.  [notify] has no handler around the call of
    [update]: when the call on the subscriber [w] throws, [notify] ends
    there and throws the same value to its caller; [update] has been
    called on the subscribers before [w] in the iterated array and on
    [w], and on none of those after it. *)
Theorem notify_throw_propagates cfg s this l1 (w : wref) l2 s1 (e : E) s2 :
  snapshot cfg this s = l1 ++ w :: l2 ->
  run_updates l1 s = Some s1 ->
  update w s1 = Throws e s2 ->
  notify cfg this s = (CallUpdate <$> (l1 ++ [w]), Throws e s2)
  /\ updated (fst (notify cfg this s)) = l1 ++ [w].
Proof.
  intros Hsnap Hrun Hthrow. unfold notify. rewrite Hsnap.
  rewrite (notify_loop_throws _ _ _ _ _ _ _ Hrun Hthrow). simpl.
  rewrite updated_updates. split; reflexivity.
Qed.

End NotifyClaims.

(** ** The ids of [Dep]s *)

Section DepIds.
Context {C : Type}.
Implicit Types (s : Store C) (d : dref) (D : Dep).

Lemma alter_subs_id (f : list wref -> list wref) (h : list Dep) (this d : dref) D :
  h !! d = Some D ->
  exists D', alter (fun x => mkDep (id x) (f (subs x))) this h !! d = Some D'
             /\ id D' = id D.
Proof.
  intros Hd. destruct (decide (this = d)) as [Heq | Hne].
  - subst this. rewrite list_lookup_alter_eq, Hd. simpl. eauto.
  - rewrite list_lookup_alter_ne by exact Hne. eauto.
Qed.

Lemma alter_subs_id_inv (f : list wref -> list wref) (h : list Dep) (this d : dref) D' :
  alter (fun x => mkDep (id x) (f (subs x))) this h !! d = Some D' ->
  exists D, h !! d = Some D /\ id D' = id D.
Proof.
  destruct (decide (this = d)) as [Heq | Hne].
  - subst this. rewrite list_lookup_alter_eq.
    destruct (h !! d) as [D |]; simpl; [| discriminate].
    intros [= <-]. eauto.
  - rewrite list_lookup_alter_ne by exact Hne. eauto.
Qed.

Lemma step_id_stable s s' d D :
  step s s' -> heap s !! d = Some D ->
  exists D', heap s' !! d = Some D' /\ id D' = id D.
Proof.
  intros Hstep Hd. destruct Hstep; simpl; eauto.
  - exists D. split; [| reflexivity]. apply lookup_app_l_Some. exact Hd.
  - apply (alter_subs_id (fun l => l ++ [w])). exact Hd.
  - apply (alter_subs_id (fun l => remove l w)). exact Hd.
Qed.

Lemma step_uid_le s s' : step s s' -> uid s <= uid s'.
Proof. intros Hstep. destruct Hstep; simpl; lia. Qed.

Lemma reach_id_stable s s' d D :
  reach s s' -> heap s !! d = Some D ->
  exists D', heap s' !! d = Some D' /\ id D' = id D.
Proof.
  intros Hreach. revert D. induction Hreach as [| s1 s2 s3 Hstep _ IH]; intros D Hd.
  - eauto.
  - destruct (step_id_stable _ _ _ _ Hstep Hd) as (D2 & Hd2 & <-).
    apply IH. exact Hd2.
Qed.

Lemma reach_uid_le s s' : reach s s' -> uid s <= uid s'.
Proof.
  induction 1 as [| s1 s2 s3 Hstep _ IH]; [lia |].
  pose proof (step_uid_le _ _ Hstep). lia.
Qed.

Lemma id_inv_init (c : C) : id_inv (init c).
Proof. split; [reflexivity |]. intros d D. simpl. discriminate. Qed.

Lemma id_inv_step s s' : step s s' -> id_inv s -> id_inv s'.
Proof.
  intros Hstep [Huid Hids]. destruct Hstep; simpl; try (split; assumption).
  - split; simpl.
    + rewrite length_app. simpl. lia.
    + intros d D. rewrite lookup_app_Some. intros [Hd | [Hlen Hd]].
      * apply Hids. exact Hd.
      * apply list_lookup_singleton_Some in Hd. destruct Hd as [Hd <-]. simpl. lia.
  - split; simpl.
    + rewrite length_alter. exact Huid.
    + intros d0 D Hd0.
      apply (alter_subs_id_inv (fun l => l ++ [w])) in Hd0.
      destruct Hd0 as (D0 & HD0 & ->). apply Hids. exact HD0.
  - split; simpl.
    + rewrite length_alter. exact Huid.
    + intros d0 D Hd0.
      apply (alter_subs_id_inv (fun l => remove l w)) in Hd0.
      destruct Hd0 as (D0 & HD0 & ->). apply Hids. exact HD0.
Qed.

Lemma id_inv_reach s s' : reach s s' -> id_inv s -> id_inv s'.
Proof.
  induction 1 as [| s1 s2 s3 Hstep _ IH]; [tauto |].
  intros Hinv. apply IH. eapply id_inv_step; eassumption.
Qed.

(** C9.  [new Dep()] gives the new instance the id [uid], an integer
    above the id of every [Dep] created before; two instances never have
    the same id, the one created later has the greater one; and no
    operation of the engine changes the id of an instance. *)
Theorem Dep_id_unique_increasing (c0 : C) s :
  reach (init c0) s ->
  (exists D, heap (snd (new_Dep s)) !! fst (new_Dep s) = Some D
             /\ heap s !! fst (new_Dep s) = None
             /\ id D = uid s
             /\ forall d' D', heap s !! d' = Some D' -> id D' < id D)
  /\ (forall s1 s2 d2 D1 D2,
        reach (snd (new_Dep s)) s1 -> new_Dep s1 = (d2, s2) ->
        heap s2 !! fst (new_Dep s) = Some D1 -> heap s2 !! d2 = Some D2 ->
        id D1 = uid s /\ id D1 < id D2)
  /\ (forall d1 d2 D1 D2,
        heap s !! d1 = Some D1 -> heap s !! d2 = Some D2 ->
        d1 <> d2 -> id D1 <> id D2)
  /\ (forall s' d D,
        reach s s' -> heap s !! d = Some D ->
        exists D', heap s' !! d = Some D' /\ id D' = id D).
Proof.
  intros Hreach.
  assert (Hinv : id_inv s)
    by (eapply id_inv_reach; [exact Hreach | apply id_inv_init]).
  destruct Hinv as [Huid Hids].
  assert (Hnew : heap (snd (new_Dep s)) !! fst (new_Dep s) = Some (mkDep (uid s) [])).
  { simpl. rewrite lookup_app_r by lia. rewrite Nat.sub_diag. reflexivity. }
  split; [| split; [| split]].
  - exists (mkDep (uid s) []). split; [exact Hnew |].
    split; [apply lookup_ge_None_2; simpl; lia |].
    split; [reflexivity |].
    intros d' D' Hd'. rewrite (Hids _ _ Hd'). simpl. rewrite Huid.
    apply lookup_lt_Some in Hd'. lia.
  - intros s1 s2 d2 D1 D2 Hreach1 Hnew2 HD1 HD2.
    assert (Hstep2 : reach s1 s2).
    { apply rtc_once. replace s2 with (snd (new_Dep s1)) by (rewrite Hnew2; reflexivity).
      apply step_new. }
    destruct (reach_id_stable _ _ _ _ (rtc_trans _ _ _ Hreach1 Hstep2) Hnew)
      as (D1' & HD1' & Hid1).
    rewrite HD1 in HD1'. injection HD1' as <-. simpl in Hid1.
    split; [exact Hid1 |].
    injection Hnew2 as <- <-. simpl in HD2.
    rewrite lookup_app_r in HD2 by lia. rewrite Nat.sub_diag in HD2.
    injection HD2 as <-. simpl. rewrite Hid1.
    pose proof (reach_uid_le _ _ Hreach1) as Hle. simpl in Hle. lia.
  - intros d1 d2 D1 D2 H1 H2 Hne. rewrite (Hids _ _ H1), (Hids _ _ H2). lia.
  - intros s' d D Hs' Hd. eapply reach_id_stable; eassumption.
Qed.

End DepIds.

(** ** Executions with watchers that keep to the interface *)

Section Respects.
Context {C E : Type} {W : Watcher C E}.
Hypothesis Hrespects : respects.

Lemma depend_reach (this : dref) (s : Store C) : reach s (final (snd (depend this s))).
Proof.
  unfold depend. destruct (Dep_target s); simpl; try reflexivity.
  apply Hrespects.
Qed.

Lemma notify_loop_reach (l : list wref) (s : Store C) :
  reach s (final (snd (notify_loop l s))).
Proof.
  revert s. induction l as [| w l IH]; intros s; simpl; [reflexivity |].
  destruct Hrespects as [_ Hupdate]. specialize (Hupdate w s).
  destruct (update w s) as [s' | e s']; simpl in *.
  - etransitivity; [exact Hupdate | apply IH].
  - exact Hupdate.
Qed.

(** [depend] and [notify] lead to stores that the engine's operations
    reach: what holds in all of these holds after them. *)
Lemma notify_reach (cfg : Config) (this : dref) (s : Store C) :
  reach s (final (snd (notify cfg this s))).
Proof. apply notify_loop_reach. Qed.

End Respects.

Lemma scenario_respects (failing : list wref) : respects (W := scenario failing).
Proof.
  split.
  - intros w d s. simpl. destruct (subscribed (collab s) w d); simpl; [reflexivity |].
    eapply rtc_l; [apply step_collab |]. apply rtc_once. apply step_addSub.
  - intros w s. simpl. destruct (existsb (Nat.eqb w) failing); simpl; [reflexivity |].
    eapply rtc_l; [apply step_removeSub |]. apply rtc_once. apply step_addSub.
Qed.

(** ** The scenarios of the specification *)

(** [wA] (id 2) and then [wB] (id 1) read the slot of the dep 0 during their
    evaluation: its subscribers are [wA; wB]. *)
Example scenario_subscription :
  final (snd (depend (W := scenario []) 0%nat (pushTarget (TWatcher wA) store_D)))
  = pushTarget (TWatcher wA)
      (mkStore 1 [mkDep 0 [wA]] TNull [] (mkBook [2; 1] [(wA, 0%nat)]))
  /\ popTarget (final (snd (depend (W := scenario []) 0%nat
       (pushTarget (TWatcher wB)
          (popTarget (final (snd (depend (W := scenario []) 0%nat
             (pushTarget (TWatcher wA) store_D)))))))))
     = store_AB.
Proof. split; reflexivity. Qed.

(** A second read by the same watcher adds no second subscription: the
    watcher decides, [depend] does not call [addSub]. *)
Example scenario_second_read :
  subs_of
    (final (snd (depend (W := scenario []) 0%nat
       (final (snd (depend (W := scenario []) 0%nat (pushTarget (TWatcher wA) store_D)))))))
    0%nat
  = [wA].
Proof. reflexivity. Qed.

(** [notify] outside production and with [config.async] false calls
    [wB.update()] before [wA.update()]; each [update] takes its watcher out
    of the subscriber sequence and puts it back, and is still called once. *)
Example scenario_notify_sync :
  notify (W := scenario []) cfg_sync 0%nat store_AB
  = ([CallUpdate wB; CallUpdate wA],
     Returns (mkStore 1 [mkDep 0 [wB; wA]] TUndefined []
                      (mkBook [2; 1] [(wB, 0%nat); (wA, 0%nat)]))).
Proof. reflexivity. Qed.

(** ** The claims at concrete stores *)

Lemma addSub_appends_only_witness :
  heap (addSub 0%nat wA store_AB) !! 0%nat = Some (mkDep 0 [wA; wB; wA])
  /\ subs_of (addSub 0%nat wA (addSub 0%nat wA store_AB)) 0%nat = [wA; wB; wA; wA].
Proof.
  destruct (addSub_appends_only store_AB 0%nat (mkDep 0 [wA; wB]) wA) as (H1 & H2 & _).
  - reflexivity.
  - split; [exact H1 | exact H2].
Defined.

Lemma removeSub_first_occurrence_witness :
  heap store_AB !! 0%nat = Some (mkDep 0 [wA; wB])
  /\ (2%nat ∉ [wA; wB] -> removeSub 0%nat 2%nat store_AB = store_AB).
Proof.
  split; [reflexivity |].
  apply (removeSub_first_occurrence store_AB 0%nat (mkDep 0 [wA; wB]) 2%nat).
  reflexivity.
Defined.

Lemma depend_inactive_noop_witness :
  truthy (Dep_target store_D) = None
  /\ depend (W := scenario []) 0%nat store_D = ([], Returns store_D).
Proof.
  split; [reflexivity |].
  apply (depend_inactive_noop (W := scenario [])). reflexivity.
Defined.

Lemma depend_active_addDep_witness :
  depend (W := scenario []) 0%nat (pushTarget (TWatcher wA) store_D)
  = ([CallAddDep wA 0%nat],
     addDep (Watcher := scenario []) wA 0%nat (pushTarget (TWatcher wA) store_D)).
Proof.
  apply (depend_active_addDep (W := scenario [])). reflexivity.
Defined.

Lemma push_push_pop_pop_witness :
  Dep_target (popTarget (pushTarget (TWatcher wB) (pushTarget (TWatcher wA) store_D)))
  = TWatcher wA
  /\ truthy (Dep_target (popTarget (popTarget
       (pushTarget (TWatcher wB) (pushTarget (TWatcher wA) store_D))))) = None.
Proof.
  destruct (push_push_pop_pop book0 store_D wA wB) as (_ & H1 & _ & _ & _ & _ & H2).
  - apply rtc_once. apply step_new.
  - split; [exact H1 | apply H2; reflexivity].
Defined.

Lemma popTarget_empty_stack_witness :
  targetStack store_D = []
  /\ Dep_target (popTarget store_D) = TUndefined
  /\ depend (W := scenario []) 0%nat (popTarget store_D) = ([], Returns (popTarget store_D)).
Proof.
  destruct (popTarget_empty_stack (W := scenario []) store_D 0%nat book0) as (H1 & H2 & _).
  - reflexivity.
  - split; [reflexivity |]. split; [rewrite H1; reflexivity | exact H2].
Defined.

Lemma Dep_id_unique_increasing_witness :
  exists D, heap (snd (new_Dep store_D)) !! fst (new_Dep store_D) = Some D
            /\ heap store_D !! fst (new_Dep store_D) = None
            /\ id D = uid store_D
            /\ forall d' D', heap store_D !! d' = Some D' -> id D' < id D.
Proof.
  apply (Dep_id_unique_increasing book0 store_D).
  apply rtc_once. apply step_new.
Defined.

Lemma notify_delivers_snapshot_witness :
  notify (W := scenario []) cfg_sync 0%nat store_AB
  = ([CallUpdate wB; CallUpdate wA],
     Returns (mkStore 1 [mkDep 0 [wB; wA]] TUndefined [] (collab store_AB)))
  /\ forall w, count_occ Nat.eq_dec
                 (updated (fst (notify (W := scenario []) cfg_sync 0%nat store_AB))) w
               = count_occ Nat.eq_dec [wA; wB] w.
Proof.
  destruct (notify_delivers_snapshot (W := scenario []) cfg_sync store_AB 0%nat
              (mkDep 0 [wA; wB])
              (mkStore 1 [mkDep 0 [wB; wA]] TUndefined [] (collab store_AB)))
    as (H1 & _ & H2 & _).
  - reflexivity.
  - reflexivity.
  - split; [exact H1 | exact H2].
Defined.

Lemma notify_ascending_outside_production_witness :
  ascending (book_id (collab store_AB))
    (updated (fst (notify (W := picky) cfg_sync 0%nat store_AB)))
  /\ notify (W := picky) cfg_sync 0%nat store_AB
     = ([CallUpdate wB; CallUpdate wA], Returns store_AB).
Proof.
  destruct (notify_ascending_outside_production (W := picky) cfg_sync store_AB 0%nat
              (mkDep 0 [wA; wB])) as [H _].
  - reflexivity.
  - destruct (H eq_refl eq_refl) as [Hascending Hreturns].
    split; [exact Hascending |].
    destruct (Hreturns store_AB) as (Hnotify & _); [reflexivity | exact Hnotify].
Defined.

Lemma notify_throw_propagates_witness :
  notify (W := scenario [wB]) cfg_sync 0%nat store_AB
  = ([CallUpdate wB], Throws "update failed"%string store_AB).
Proof.
  apply (notify_throw_propagates (W := scenario [wB]) cfg_sync store_AB 0%nat
           [] wB [wA] store_AB "update failed"%string store_AB); reflexivity.
Defined.

(** ** Where the claims as stated fail *)

(** C1 as stated: with [config.async] false in a production build, [wA]
    (id 2) is updated before [wB] (id 1). *)
Lemma notify_production_order_counterexample :
  async cfg_production_sync = false
  /\ heap store_AB !! 0%nat = Some (mkDep 0 [wA; wB])
  /\ updated (fst (notify (W := scenario []) cfg_production_sync 0%nat store_AB)) = [wA; wB]
  /\ book_id (collab store_AB) wB < book_id (collab store_AB) wA
  /\ ~ ascending (watcher_id (Watcher := scenario []) (collab store_AB))
         (updated (fst (notify (W := scenario []) cfg_production_sync 0%nat store_AB))).
Proof.
  split; [reflexivity |]. split; [reflexivity |]. split; [reflexivity |].
  split; [reflexivity |].
  intros Hasc. specialize (Hasc 1%nat 0%nat wB wA eq_refl eq_refl eq_refl). lia.
Qed.

(** C2 as stated: [wB] is a subscriber at entry, [wA.update()] throws
    before the loop comes to it, and [wB.update()] is not called once but
    never. *)
Lemma notify_delivery_counterexample :
  heap store_AB !! 0%nat = Some (mkDep 0 [wA; wB])
  /\ wB ∈ subs (mkDep 0 [wA; wB])
  /\ notify (W := scenario [wA]) cfg_async 0%nat store_AB
     = ([CallUpdate wA], Throws "update failed"%string store_AB)
  /\ count_occ Nat.eq_dec
       (updated (fst (notify (W := scenario [wA]) cfg_async 0%nat store_AB))) wB
     <> 1%nat.
Proof.
  split; [reflexivity |].
  split; [apply list_elem_of_further, list_elem_of_here |].
  split; [reflexivity |]. simpl. discriminate.
Qed.

(** C3 as stated: [wB.update()] throws, [notify] throws, and
    [wA.update()], next in the snapshot, is not called. *)
Lemma notify_isolation_counterexample :
  snapshot (W := scenario [wB]) cfg_sync 0%nat store_AB = [wB; wA]
  /\ update (Watcher := scenario [wB]) wB store_AB = Throws "update failed"%string store_AB
  /\ notify (W := scenario [wB]) cfg_sync 0%nat store_AB
     = ([CallUpdate wB], Throws "update failed"%string store_AB)
  /\ (wA ∉ updated (fst (notify (W := scenario [wB]) cfg_sync 0%nat store_AB))).
Proof.
  split; [reflexivity |]. split; [reflexivity |]. split; [reflexivity |].
  simpl. apply not_elem_of_cons. split; [discriminate | apply not_elem_of_nil].
Qed.

(** ** More on the context stack *)

Section StackCalls.
Context {C : Type}.
Implicit Types (s : Store C) (ops : list StackOp).

Lemma run_op_step op s : step s (run_op op s).
Proof. destruct op; simpl; [apply step_pushTarget | apply step_popTarget]. Qed.

Lemma run_ops_reach ops s : reach s (run_ops ops s).
Proof.
  revert s. induction ops as [| op ops IH]; intros s; simpl; [reflexivity |].
  eapply rtc_l; [apply run_op_step | apply IH].
Qed.

Lemma run_ops_frame ops s :
  uid (run_ops ops s) = uid s /\ heap (run_ops ops s) = heap s
  /\ collab (run_ops ops s) = collab s.
Proof.
  revert s. induction ops as [| op ops IH]; intros s; simpl; [auto |].
  destruct (IH (run_op op s)) as (-> & -> & ->). destruct op; auto.
Qed.

Lemma run_ops_stack ops : forall (depth : nat) s (base open : list Target),
  nested depth ops = true -> targetStack s = base ++ open -> length open = depth ->
  targetStack (run_ops ops s) = base.
Proof.
  induction ops as [| op ops IH]; intros depth s base open Hnested Hstack Hlen; simpl in *.
  - apply Nat.eqb_eq in Hnested. subst depth.
    apply nil_length_inv in Hlen. subst open. rewrite app_nil_r in Hstack. exact Hstack.
  - destruct op as [t |].
    + apply (IH (S depth) _ base (open ++ [t])); [exact Hnested | |].
      * simpl. rewrite Hstack, app_assoc. reflexivity.
      * rewrite length_app. simpl. lia.
    + destruct depth as [| depth]; [discriminate |].
      destruct (exists_last (l := open)) as (open' & t & ->).
      { intros ->. discriminate. }
      apply (IH depth _ base open'); [exact Hnested | |].
      * simpl. rewrite Hstack, app_assoc. apply removelast_last.
      * rewrite length_app in Hlen. simpl in Hlen. lia.
Qed.

(** Bracketed calls of [pushTarget] and [popTarget], nested to any depth,
    leave [targetStack] as it was and write nothing but [Dep.target] and
    the stack; in a store where [Dep.target] is the top of the stack they
    give back the active watcher, and the whole store when the stack was
    not empty. *)
Theorem nested_calls_restore ops s :
  nested 0 ops = true ->
  targetStack (run_ops ops s) = targetStack s
  /\ uid (run_ops ops s) = uid s
  /\ heap (run_ops ops s) = heap s
  /\ collab (run_ops ops s) = collab s
  /\ (stack_inv s -> truthy (Dep_target (run_ops ops s)) = truthy (Dep_target s))
  /\ (stack_inv s -> targetStack s <> [] -> run_ops ops s = s).
Proof.
  intros Hnested.
  assert (Hstack : targetStack (run_ops ops s) = targetStack s).
  { apply (run_ops_stack ops 0%nat s (targetStack s) []); [exact Hnested | | reflexivity].
    rewrite app_nil_r. reflexivity. }
  destruct (run_ops_frame ops s) as (Huid & Hheap & Hcollab).
  split; [exact Hstack |]. split; [exact Huid |]. split; [exact Hheap |].
  split; [exact Hcollab |].
  assert (Hafter : stack_inv s -> stack_inv (run_ops ops s))
    by (apply stack_inv_reach, run_ops_reach).
  split.
  - intros Hinv. destruct (stack_inv_top _ (Hafter Hinv)) as [<- _].
    destruct (stack_inv_top _ Hinv) as [<- _]. rewrite Hstack. reflexivity.
  - intros Hinv Hne. apply store_eq; try assumption.
    destruct (stack_inv_top _ (Hafter Hinv)) as [_ Htop'].
    destruct (stack_inv_top _ Hinv) as [_ Htop].
    rewrite <- Htop' by (rewrite Hstack; exact Hne).
    rewrite <- Htop by exact Hne. rewrite Hstack. reflexivity.
Qed.

Lemma popTarget_iter_stack (n : nat) s :
  targetStack (Nat.iter n popTarget s)
  = take (length (targetStack s) - n) (targetStack s).
Proof.
  induction n as [| n IH]; simpl.
  - rewrite Nat.sub_0_r, take_ge; [reflexivity | lia].
  - rewrite IH, removelast_firstn_len. change (@firstn Target) with (@take Target).
    rewrite take_take, length_take. f_equal. lia.
Qed.

(** [popTarget()] called more often than [pushTarget] was: the calls take
    the stack down to the empty array and stay there, without failing, and
    [Dep.target] ends as [undefined]. *)
Theorem popTarget_drains (n : nat) s :
  (length (targetStack s) <= n)%nat -> (0 < n)%nat ->
  targetStack (Nat.iter n popTarget s) = []
  /\ Dep_target (Nat.iter n popTarget s) = TUndefined
  /\ popTarget (Nat.iter n popTarget s) = Nat.iter n popTarget s.
Proof.
  intros Hlen Hpos.
  assert (Hstack : targetStack (Nat.iter n popTarget s) = []).
  { rewrite popTarget_iter_stack.
    replace (length (targetStack s) - n)%nat with 0%nat by lia. reflexivity. }
  assert (Htarget : Dep_target (Nat.iter n popTarget s) = TUndefined).
  { destruct n as [| n]; [lia |]. simpl in *. rewrite Hstack. reflexivity. }
  split; [exact Hstack |]. split; [exact Htarget |].
  apply store_eq; simpl; rewrite ?Hstack; try reflexivity. symmetry. exact Htarget.
Qed.

End StackCalls.

(** ** More on subscribers and ids *)

Section MoreSubscribers.
Context {C : Type}.
Implicit Types (s : Store C) (d : Dep) (this : dref) (sub : wref).

(** [addSub] and then [removeSub] of a watcher that was not subscribed
    give back the store; of a watcher that was subscribed, [removeSub]
    takes out its old place in the sequence, and the watcher ends last. *)
Theorem removeSub_addSub s this d sub :
  heap s !! this = Some d ->
  (sub ∉ subs d -> removeSub this sub (addSub this sub s) = s)
  /\ (forall l1 l2, subs d = l1 ++ sub :: l2 -> sub ∉ l1 ->
        subs_of (removeSub this sub (addSub this sub s)) this = l1 ++ l2 ++ [sub]).
Proof.
  intros Hd.
  assert (Hlookup : heap (removeSub this sub (addSub this sub s)) !! this
                    = Some (mkDep (id d) (remove (subs d ++ [sub]) sub))).
  { erewrite removeSub_lookup; [| apply addSub_lookup; exact Hd]. reflexivity. }
  split.
  - intros Hnotin. apply store_eq; try reflexivity.
    apply list_eq. intros i. destruct (decide (i = this)) as [-> | Hne].
    + rewrite Hlookup, Hd, remove_first by exact Hnotin.
      rewrite app_nil_r. destruct d; reflexivity.
    + rewrite removeSub_other, addSub_other by exact Hne. reflexivity.
  - intros l1 l2 Hsplit Hnotin.
    rewrite (subs_of_lookup _ _ _ Hlookup). simpl.
    rewrite Hsplit, <- app_assoc. simpl.
    rewrite (remove_first l1 (l2 ++ [sub]) sub Hnotin). reflexivity.
Qed.

(** The ids are the integers from 0 on, in the order of creation: in a
    store that the engine reaches from the one at load time, [uid] is the
    number of [Dep]s created, and the [Dep] created as the [n]-th, counting
    from 0, has the id [n]. *)
Theorem Dep_ids_count_creations (c0 : C) s :
  reach (init c0) s ->
  uid s = Z.of_nat (length (heap s))
  /\ forall (n : nat) D, heap s !! n = Some D -> id D = Z.of_nat n.
Proof.
  intros Hreach. eapply id_inv_reach; [exact Hreach | apply id_inv_init].
Qed.

End MoreSubscribers.

(** ** More on [notify] *)

Section MoreNotify.
Context {C E : Type} {W : Watcher C E}.
Implicit Types (s : Store C) (this : dref) (l : list wref).

Lemma run_updates_inert l s :
  (forall w, w ∈ l -> update w s = Returns s) -> run_updates l s = Some s.
Proof.
  induction l as [| w l IH]; intros Hinert; simpl; [reflexivity |].
  rewrite (Hinert w (list_elem_of_here _ _)).
  apply IH. intros w' Hw'. apply Hinert. apply list_elem_of_further. exact Hw'.
Qed.

(** [notify] writes nothing itself: it sorts its copy of the subscriber
    sequence, never [this.subs].  With subscribers whose [update] leaves
    the store as it is, the store after [notify] is the store before, in
    every configuration. *)
Theorem notify_writes_nothing cfg this s :
  (forall w, w ∈ subs_of s this -> update w s = Returns s) ->
  notify cfg this s = (CallUpdate <$> snapshot cfg this s, Returns s).
Proof.
  intros Hinert. unfold notify. apply notify_loop_returns.
  apply run_updates_inert. intros w Hw. apply Hinert.
  rewrite <- (snapshot_perm cfg this s). exact Hw.
Qed.

(** A [Dep] without subscribers, as every [Dep] is when [new Dep()]
    returns: [notify] calls nothing and leaves the store. *)
Theorem notify_no_subscriber cfg this s :
  subs_of s this = [] ->
  notify cfg this s = ([], Returns s)
  /\ notify cfg (fst (new_Dep s)) (snd (new_Dep s)) = ([], Returns (snd (new_Dep s))).
Proof.
  intros Hempty.
  assert (Hnone : forall this' s', subs_of s' this' = [] -> notify cfg this' s' = ([], Returns s')).
  { intros this' s' He. unfold notify, snapshot. rewrite He.
    destruct (negb (production cfg) && negb (async cfg)); reflexivity. }
  split; [apply Hnone; exact Hempty |].
  apply Hnone. unfold subs_of. simpl.
  rewrite lookup_app_r by lia. rewrite Nat.sub_diag. reflexivity.
Qed.

(** Whatever the subscribers do, and whether [notify] returns or throws:
    its calls are calls of [update] on a front part of the snapshot; no
    watcher is called more often than it occurs in the subscriber sequence
    at entry, and there are no more calls than subscribers at entry. *)
Theorem notify_calls_within_snapshot cfg this s :
  fst (notify cfg this s) = CallUpdate <$> updated (fst (notify cfg this s))
  /\ updated (fst (notify cfg this s)) `prefix_of` snapshot cfg this s
  /\ (forall w, (count_occ Nat.eq_dec (updated (fst (notify cfg this s))) w
                 <= count_occ Nat.eq_dec (subs_of s this) w)%nat)
  /\ (length (fst (notify cfg this s)) <= length (subs_of s this))%nat.
Proof.
  assert (Hcalls : fst (notify cfg this s) = CallUpdate <$> updated (fst (notify cfg this s))).
  { unfold notify.
    destruct (notify_loop_cases (snapshot cfg this s) s)
      as [[s' Hs'] | (l1 & w & l2 & s1 & e & s2 & Hsnap & Hrun & Hthrow)].
    - rewrite (notify_loop_returns _ _ _ Hs'). simpl. rewrite updated_updates. reflexivity.
    - rewrite Hsnap, (notify_loop_throws _ _ _ _ _ _ _ Hrun Hthrow). simpl.
      rewrite updated_updates. reflexivity. }
  pose proof (notify_loop_prefix (snapshot cfg this s) s) as Hprefix.
  fold (notify cfg this s) in Hprefix.
  pose proof (snapshot_perm cfg this s) as Hperm.
  split; [exact Hcalls |]. split; [exact Hprefix |].
  destruct Hprefix as [k Hk]. split.
  - intros w.
    rewrite <- (proj1 (Permutation_count_occ Nat.eq_dec _ _) Hperm w).
    rewrite Hk, count_occ_app. lia.
  - rewrite Hcalls, length_fmap.
    rewrite <- (Permutation_length Hperm), Hk, length_app. lia.
Qed.

(** Outside production and with [config.async] false, the order of the
    calls depends on the subscribers only, not on the order in which they
    subscribed: when no two subscribers have the same id, two subscriber
    sequences with the same watchers give the same snapshot, and two runs
    in which no call of [update] throws make the same calls. *)
Theorem notify_order_from_ids cfg (this1 this2 : dref) (s1 s2 : Store C) :
  production cfg = false -> async cfg = false ->
  subs_of s1 this1 ≡ₚ subs_of s2 this2 ->
  collab s1 = collab s2 ->
  (forall a b, a ∈ subs_of s1 this1 -> b ∈ subs_of s1 this1 ->
     watcher_id (collab s1) a = watcher_id (collab s1) b -> a = b) ->
  snapshot cfg this1 s1 = snapshot cfg this2 s2
  /\ (forall s1' s2',
        run_updates (snapshot cfg this1 s1) s1 = Some s1' ->
        run_updates (snapshot cfg this2 s2) s2 = Some s2' ->
        notify cfg this1 s1 = (CallUpdate <$> snapshot cfg this1 s1, Returns s1')
        /\ notify cfg this2 s2 = (CallUpdate <$> snapshot cfg this1 s1, Returns s2')).
Proof.
  intros Hp Ha Hperm Hcollab Hinj.
  assert (Hsnap : snapshot cfg this1 s1 = snapshot cfg this2 s2).
  { apply (StronglySorted_unique_strong
             (fun a b => watcher_id (collab s1) a <= watcher_id (collab s1) b)).
    - intros a b Ha1 Hb2 Hab Hba. apply Hinj.
      + rewrite <- (snapshot_perm cfg this1 s1). exact Ha1.
      + rewrite Hperm, <- (snapshot_perm cfg this2 s2). exact Hb2.
      + lia.
    - apply snapshot_sorted; assumption.
    - rewrite Hcollab. apply snapshot_sorted; assumption.
    - rewrite !snapshot_perm. exact Hperm. }
  split; [exact Hsnap |].
  intros s1' s2' Hrun1 Hrun2. unfold notify.
  rewrite (notify_loop_returns _ _ _ Hrun1), (notify_loop_returns _ _ _ Hrun2).
  rewrite Hsnap. split; reflexivity.
Qed.

(** With watchers that use the engine through its operations, [depend]
    and [notify] keep what holds in every store that the engine reaches:
    after them, returned or thrown, [Dep.target] is the top of
    [targetStack], the ids count the creations, and every [Dep] of before
    is there with its id. *)
Theorem callbacks_keep_invariants (c0 : C) cfg this s :
  respects -> reach (init c0) s ->
  (stack_inv (final (snd (notify cfg this s)))
   /\ id_inv (final (snd (notify cfg this s)))
   /\ forall d D, heap s !! d = Some D ->
        exists D', heap (final (snd (notify cfg this s))) !! d = Some D' /\ id D' = id D)
  /\ (stack_inv (final (snd (depend this s)))
      /\ id_inv (final (snd (depend this s)))
      /\ forall d D, heap s !! d = Some D ->
           exists D', heap (final (snd (depend this s))) !! d = Some D' /\ id D' = id D).
Proof.
  intros Hrespects Hreach.
  assert (Hall : forall s', reach s s' ->
            stack_inv s' /\ id_inv s'
            /\ forall d D, heap s !! d = Some D ->
                 exists D', heap s' !! d = Some D' /\ id D' = id D).
  { intros s' Hs'. split; [| split].
    - eapply stack_inv_reach; [| apply (stack_inv_init c0)].
      etransitivity; eassumption.
    - eapply id_inv_reach; [| apply (id_inv_init c0)].
      etransitivity; eassumption.
    - intros d D Hd. eapply reach_id_stable; eassumption. }
  split; apply Hall.
  - apply notify_reach. exact Hrespects.
  - apply depend_reach. exact Hrespects.
Qed.

End MoreNotify.

(** ** props.js: [getType], [isSameType], [getTypeIndex] *)

Section TypeNames.
Implicit Types (str ws name rest : list N) (fn type : TypeValue).

Lemma skip_spaces_app ws str :
  Forall (fun c => is_space c = true) ws ->
  match str with [] => True | c :: _ => is_space c = false end ->
  skip_spaces (ws ++ str) = str.
Proof.
  intros Hws Hstr. induction Hws as [| c ws Hc _ IH]; simpl.
  - destruct str as [| c str]; simpl; [reflexivity |]. rewrite Hstr. reflexivity.
  - rewrite Hc. exact IH.
Qed.

Lemma skip_spaces_split str :
  exists ws, str = ws ++ skip_spaces str /\ Forall (fun c => is_space c = true) ws.
Proof.
  induction str as [| c str (ws & Heq & Hws)]; simpl.
  - exists []. split; [reflexivity | constructor].
  - destruct (is_space c) eqn:Hc.
    + exists (c :: ws). split; [simpl; congruence | constructor; assumption].
    + exists []. split; [reflexivity | constructor].
Qed.

Lemma strip_prefix_app (literal rest : list N) : strip_prefix literal (literal ++ rest) = Some rest.
Proof.
  induction literal as [| a literal IH]; simpl; [destruct rest; reflexivity |].
  rewrite N.eqb_refl. exact IH.
Qed.

Lemma strip_prefix_Some (literal : list N) str rest :
  strip_prefix literal str = Some rest -> str = literal ++ rest.
Proof.
  revert str. induction literal as [| a literal IH]; intros str; simpl.
  - destruct str; intros [= ->]; reflexivity.
  - destruct str as [| c str]; [discriminate |].
    destruct (N.eqb_spec a c) as [-> | _]; [| discriminate].
    intros Hrest. rewrite (IH _ Hrest). reflexivity.
Qed.

Lemma take_word_app name rest :
  Forall (fun c => is_word c = true) name -> word_ends rest ->
  take_word (name ++ rest) = name.
Proof.
  intros Hname Hrest. induction Hname as [| c name Hc _ IH]; simpl.
  - destruct rest as [| c rest]; simpl; [reflexivity |].
    simpl in Hrest. rewrite Hrest. reflexivity.
  - rewrite Hc, IH. reflexivity.
Qed.

Lemma take_word_split str :
  exists rest, str = take_word str ++ rest /\ word_ends rest.
Proof.
  induction str as [| c str (rest & Heq & Hrest)]; simpl.
  - exists []. split; [reflexivity | exact I].
  - destruct (is_word c) eqn:Hc.
    + exists rest. split; [simpl; congruence | exact Hrest].
    + exists (c :: str). split; [reflexivity | exact Hc].
Qed.

Lemma take_word_word str : Forall (fun c => is_word c = true) (take_word str).
Proof.
  induction str as [| c str IH]; simpl; [constructor |].
  destruct (is_word c) eqn:Hc; constructor; assumption.
Qed.

(** The name of a function whose text declares one. *)
Lemma getType_declared ws name rest :
  Forall (fun c => is_space c = true) ws ->
  name <> [] -> Forall (fun c => is_word c = true) name -> word_ends rest ->
  getType (Truthy (ws ++ codes "function " ++ name ++ rest)) = name.
Proof.
  intros Hws Hne Hname Hrest. unfold getType, match_function_name.
  rewrite skip_spaces_app; [| exact Hws | reflexivity].
  rewrite strip_prefix_app, take_word_app by assumption.
  destruct name; [congruence | reflexivity].
Qed.

(** [getType] gives the name that the text of a function declares: for
    [function Name...] after any white space, [Name], the word characters
    up to the first other character; and when it gives a name at all, the
    text has this form.  So the text of a function without a name, of an
    arrow function or of a class gives the empty string, as a falsy value
    does. *)
Theorem getType_function_name :
  (forall ws name rest,
     Forall (fun c => is_space c = true) ws ->
     name <> [] -> Forall (fun c => is_word c = true) name -> word_ends rest ->
     getType (Truthy (ws ++ codes "function " ++ name ++ rest)) = name)
  /\ (forall str, getType (Truthy str) <> [] ->
        exists ws rest,
          str = ws ++ codes "function " ++ getType (Truthy str) ++ rest
          /\ Forall (fun c => is_space c = true) ws /\ word_ends rest)
  /\ getType Falsy = [].
Proof.
  split; [exact getType_declared |]. split; [| reflexivity].
  intros str. unfold getType, match_function_name.
  destruct (skip_spaces_split str) as (ws & Hstr & Hws).
  destruct (strip_prefix (codes "function ") (skip_spaces str)) as [after |] eqn:Hstrip;
    [| congruence].
  apply strip_prefix_Some in Hstrip.
  destruct (take_word_split after) as (rest & Hafter & Hrest).
  destruct (take_word after) as [| c name] eqn:Hword; [congruence |].
  intros _. exists ws, rest. split; [| split; assumption].
  rewrite Hstr at 1. rewrite Hstrip, Hafter. reflexivity.
Qed.

(** What [getType] returns has word characters only. *)
Theorem getType_word_characters fn : Forall (fun c => is_word c = true) (getType fn).
Proof.
  destruct fn as [| str]; simpl; [constructor |]. unfold match_function_name.
  destruct (strip_prefix (codes "function ") (skip_spaces str)) as [after |]; [| constructor].
  pose proof (take_word_word after) as Hword.
  destruct (take_word after); [constructor | exact Hword].
Qed.

(** [isSameType] compares the declared names and nothing else: two
    functions declared with a name are the same type exactly when the
    names are equal, whatever the rest of their texts; and all values from
    which [getType] reads no name are the same type. *)
Theorem isSameType_by_name :
  (forall ws1 ws2 name1 name2 rest1 rest2,
     Forall (fun c => is_space c = true) ws1 -> Forall (fun c => is_space c = true) ws2 ->
     name1 <> [] -> name2 <> [] ->
     Forall (fun c => is_word c = true) name1 -> Forall (fun c => is_word c = true) name2 ->
     word_ends rest1 -> word_ends rest2 ->
     (isSameType (Truthy (ws1 ++ codes "function " ++ name1 ++ rest1))
                 (Truthy (ws2 ++ codes "function " ++ name2 ++ rest2)) = true
      <-> name1 = name2))
  /\ (forall a b, getType a = [] -> getType b = [] -> isSameType a b = true).
Proof.
  split.
  - intros ws1 ws2 name1 name2 rest1 rest2 Hws1 Hws2 Hne1 Hne2 Hn1 Hn2 Hr1 Hr2.
    unfold isSameType. rewrite bool_decide_eq_true.
    rewrite !getType_declared by assumption. reflexivity.
  - intros a b Ha Hb. unfold isSameType. rewrite bool_decide_eq_true. congruence.
Qed.

Lemma getTypeIndex_from_spec type (ts : list TypeValue) (i : Z) :
  (getTypeIndex_from type ts i = -1
   /\ forall t, t ∈ ts -> isSameType t type = false)
  \/ (exists (n : nat) t,
        getTypeIndex_from type ts i = i + Z.of_nat n
        /\ ts !! n = Some t /\ isSameType t type = true
        /\ forall (m : nat) t', (m < n)%nat -> ts !! m = Some t' -> isSameType t' type = false).
Proof.
  revert i. induction ts as [| t ts IH]; intros i; simpl.
  - left. split; [reflexivity |]. intros t Ht. apply elem_of_nil in Ht. contradiction.
  - destruct (isSameType t type) eqn:Hsame.
    + right. exists 0%nat, t. repeat split; [lia | assumption | intros; lia].
    + destruct (IH (i + 1)) as [[Hnone Hall] | (n & t' & Hidx & Hlook & Hsame' & Hfirst)].
      * left. split; [exact Hnone |]. intros t' Ht'.
        apply elem_of_cons in Ht'. destruct Ht' as [-> | Ht']; [exact Hsame | auto].
      * right. exists (S n), t'. repeat split; [lia | assumption ..|].
        intros m t0 Hm Ht0. destruct m as [| m]; simpl in Ht0.
        -- injection Ht0 as <-. exact Hsame.
        -- apply (Hfirst m); [lia | exact Ht0].
Qed.

(** [getTypeIndex(type, expectedTypes)] on an array: the index of the
    first element that is the same type as [type], or [-1] when there is
    none (so [-1] on the empty array); on a value that is not an array: [0]
    when it is the same type, else [-1]. *)
Theorem getTypeIndex_first_match type (ts : list TypeValue) (t0 : TypeValue) :
  ((getTypeIndex type (IsArray ts) = -1
    /\ forall t, t ∈ ts -> isSameType t type = false)
   \/ (exists (n : nat) t,
         getTypeIndex type (IsArray ts) = Z.of_nat n
         /\ ts !! n = Some t /\ isSameType t type = true
         /\ forall (m : nat) t', (m < n)%nat -> ts !! m = Some t' ->
              isSameType t' type = false))
  /\ -1 <= getTypeIndex type (IsArray ts) < Z.of_nat (length ts)
  /\ (getTypeIndex type (NotArray t0) = 0 /\ getType t0 = getType type
      \/ getTypeIndex type (NotArray t0) = -1 /\ getType t0 <> getType type).
Proof.
  pose proof (getTypeIndex_from_spec type ts 0) as Hspec. simpl.
  split; [| split].
  - destruct Hspec as [Hnone | (n & t & Hidx & Hrest)]; [left; exact Hnone |].
    right. exists n, t. rewrite Hidx. split; [lia | exact Hrest].
  - destruct Hspec as [[-> _] | (n & t & -> & Hlook & _)]; [lia |].
    apply lookup_lt_Some in Hlook. lia.
  - unfold isSameType. destruct (bool_decide_reflect (getType t0 = getType type)); auto.
Qed.

End TypeNames.

(** ** The further properties at concrete stores *)

Lemma nested_calls_restore_witness :
  run_ops [OpPush (TWatcher wA); OpPush TNull; OpPop; OpPop]
          (pushTarget (TWatcher wB) store_D)
  = pushTarget (TWatcher wB) store_D.
Proof.
  destruct (nested_calls_restore
              [OpPush (TWatcher wA); OpPush TNull; OpPop; OpPop]
              (pushTarget (TWatcher wB) store_D)) as (_ & _ & _ & _ & _ & H).
  - reflexivity.
  - apply H; [reflexivity | discriminate].
Defined.

Lemma popTarget_drains_witness :
  targetStack (Nat.iter 3 popTarget (pushTarget (TWatcher wA) store_D)) = []
  /\ Dep_target (Nat.iter 3 popTarget (pushTarget (TWatcher wA) store_D)) = TUndefined.
Proof.
  destruct (popTarget_drains 3 (pushTarget (TWatcher wA) store_D)) as (H1 & H2 & _).
  - simpl. lia.
  - lia.
  - split; [exact H1 | exact H2].
Defined.

Lemma removeSub_addSub_witness :
  removeSub 0%nat 2%nat (addSub 0%nat 2%nat store_AB) = store_AB.
Proof.
  destruct (removeSub_addSub store_AB 0%nat (mkDep 0 [wA; wB]) 2%nat) as [H _].
  - reflexivity.
  - apply H. intros Hin.
    apply elem_of_cons in Hin. destruct Hin as [Hin | Hin]; [discriminate |].
    apply elem_of_cons in Hin. destruct Hin as [Hin | Hin]; [discriminate |].
    apply elem_of_nil in Hin. exact Hin.
Defined.

Lemma Dep_ids_count_creations_witness :
  uid store_D = Z.of_nat (length (heap store_D)).
Proof.
  destruct (Dep_ids_count_creations book0 store_D) as [H _].
  - apply rtc_once. apply step_new.
  - exact H.
Defined.

Lemma notify_writes_nothing_witness :
  notify (W := scenario []) cfg_sync 0%nat (addSub 0%nat wA store_D)
  = ([CallUpdate wA], Returns (addSub 0%nat wA store_D)).
Proof.
  apply (notify_writes_nothing (W := scenario []) cfg_sync 0%nat (addSub 0%nat wA store_D)).
  intros w Hw. apply list_elem_of_singleton in Hw. subst w. reflexivity.
Defined.

Lemma notify_no_subscriber_witness :
  notify (W := scenario []) cfg_sync 0%nat store_D = ([], Returns store_D).
Proof.
  destruct (notify_no_subscriber (W := scenario []) cfg_sync 0%nat store_D) as [H _].
  - reflexivity.
  - exact H.
Defined.

Lemma notify_order_from_ids_witness :
  notify (W := scenario []) cfg_sync 0%nat store_AB
  = ([CallUpdate wB; CallUpdate wA],
     Returns (mkStore 1 [mkDep 0 [wB; wA]] TUndefined [] (collab store_AB)))
  /\ notify (W := scenario []) cfg_sync 0%nat
       (mkStore 1 [mkDep 0 [wB; wA]] TUndefined [] (collab store_AB))
     = ([CallUpdate wB; CallUpdate wA],
        Returns (mkStore 1 [mkDep 0 [wB; wA]] TUndefined [] (collab store_AB))).
Proof.
  destruct (notify_order_from_ids (W := scenario []) cfg_sync 0%nat 0%nat store_AB
              (mkStore 1 [mkDep 0 [wB; wA]] TUndefined [] (collab store_AB))) as [_ H].
  - reflexivity.
  - reflexivity.
  - apply perm_swap.
  - reflexivity.
  - intros a b Ha Hb.
    apply elem_of_cons in Ha. destruct Ha as [-> | Ha];
      [| apply list_elem_of_singleton in Ha; subst a];
      (apply elem_of_cons in Hb; destruct Hb as [-> | Hb];
        [| apply list_elem_of_singleton in Hb; subst b]);
      simpl; intros Hid; try reflexivity; discriminate Hid.
  - apply (H (mkStore 1 [mkDep 0 [wB; wA]] TUndefined [] (collab store_AB))
             (mkStore 1 [mkDep 0 [wB; wA]] TUndefined [] (collab store_AB)));
      reflexivity.
Defined.

(** The store of the scenario while a third watcher evaluates: the engine
    reaches it from the store at load time. *)
Lemma store_AB_evaluating_reach :
  reach (init book0) (pushTarget (TWatcher 2%nat) store_AB).
Proof.
  eapply rtc_l; [apply step_new |].
  eapply rtc_l; [apply (step_addSub 0%nat wA) |].
  eapply rtc_l; [apply (step_addSub 0%nat wB) |].
  eapply rtc_l; [apply step_popTarget |].
  eapply rtc_l; [apply (step_collab (collab store_AB)) |].
  apply rtc_once. apply (step_pushTarget (TWatcher 2%nat) store_AB).
Qed.

Lemma callbacks_keep_invariants_witness :
  (fst (notify (W := scenario []) cfg_sync 0%nat (pushTarget (TWatcher 2%nat) store_AB))
   = [CallUpdate wB; CallUpdate wA]
   /\ subs_of (final (snd (notify (W := scenario []) cfg_sync 0%nat
                              (pushTarget (TWatcher 2%nat) store_AB)))) 0%nat
      = [wB; wA]
   /\ stack_inv (final (snd (notify (W := scenario []) cfg_sync 0%nat
                               (pushTarget (TWatcher 2%nat) store_AB))))
   /\ id_inv (final (snd (notify (W := scenario []) cfg_sync 0%nat
                            (pushTarget (TWatcher 2%nat) store_AB)))))
  /\ (fst (depend (W := scenario []) 0%nat (pushTarget (TWatcher 2%nat) store_AB))
      = [CallAddDep 2%nat 0%nat]
      /\ subs_of (final (snd (depend (W := scenario []) 0%nat
                                (pushTarget (TWatcher 2%nat) store_AB)))) 0%nat
         = [wA; wB; 2%nat]
      /\ stack_inv (final (snd (depend (W := scenario []) 0%nat
                                  (pushTarget (TWatcher 2%nat) store_AB))))
      /\ id_inv (final (snd (depend (W := scenario []) 0%nat
                               (pushTarget (TWatcher 2%nat) store_AB))))).
Proof.
  destruct (callbacks_keep_invariants (W := scenario []) book0 cfg_sync 0%nat
              (pushTarget (TWatcher 2%nat) store_AB))
    as [(Hn1 & Hn2 & _) (Hd1 & Hd2 & _)].
  - apply scenario_respects.
  - apply store_AB_evaluating_reach.
  - split; (split; [reflexivity |]; split; [reflexivity |]; split; assumption).
Defined.

(** [Boolean] is found behind [String], and not in an array without it. *)
Example getTypeIndex_Boolean :
  getTypeIndex Boolean_type (IsArray [String_type; Boolean_type]) = 1
  /\ getTypeIndex Boolean_type (IsArray [String_type; anonymous_type]) = -1
  /\ getTypeIndex Boolean_type (NotArray Falsy) = -1
  /\ getType Boolean_type = codes "Boolean"
  /\ getType anonymous_type = [].
Proof. repeat split. Qed.
